(** * Checkpointed self-play experiment: a shallow embedding

    This development embeds [nash_experiment.py] (the checkpoint-driven
    training / benchmarking / persistence pipeline) and the log-odds
    transformation of [prototype_app.py], and proves properties of them.

    Conventions of the embedding:
    - Python integers are [Z]; Python lists are [list]; the dictionary
      built by [save_winrate_matrices] is a [gmap Z _].
    - The reinforcement-learning library (regym), numpy's and torch's
      random generators and the objects they own (agents, environments)
      live in an external runtime state; every call into the library is a
      field of the class [Regym] and threads that state explicitly.
      Agents are references into that state, so that in-place training of
      an agent is visible through every alias of it.
    - The local file system is a finite map from paths to nodes; every
      observable action is also recorded, in order, in a trace.
    - Python exceptions are the left summand of a state-and-error monad:
      an exception keeps the state reached so far.
    - Logging and wall-clock timing only feed log messages and are left
      out. *)

From Stdlib Require Import ZArith String Ascii DecimalString DecimalPos DecimalZ Reals Lra Lia.
From stdpp Require Import base option list gmap strings sorting.

Local Open Scope string_scope.
Local Open Scope list_scope.
Local Open Scope Z_scope.
Local Set Warnings "-clear-no-such-hyp".

(** ** Python values used by the pipeline *)

(** [str(i)] for a Python integer: decimal digits, a leading minus sign
    for negative numbers. *)
Definition str_int (i : Z) : string := NilZero.string_of_int (Z.to_int i).

(** [sorted(l)] on a list of integers. *)
Definition sorted (l : list Z) : list Z := merge_sort Z.le l.

(** [range(a, a + n)] as a list of integers. *)
Definition range (a : Z) (n : nat) : list Z := (fun k => a + Z.of_nat k) <$> seq 0 n.

(** [list(range(start, stop, step))] for a positive step. *)
Definition range_step (start stop step : Z) : list Z :=
  (fun k => start + step * Z.of_nat k) <$> seq 0 (Z.to_nat ((stop - start + step - 1) / step)).

(** The exceptions the pipeline can end with. *)
Inductive exn : Type :=
| ValueError
| KeyError (key : string)
| TypeError
| TrainingFailure.

(** ** Matrices and the two-dimensional slice *)

(** [m[:i, :i]] on a two-dimensional array stored by rows. *)
Definition top_left {F : Type} (i : nat) (m : list (list F)) : list (list F) :=
  take i <$> take i m.

(** [[m[:i, :i] for i in range(1, len(m) + 1)]]. *)
Definition prefix_submatrices {F : Type} (m : list (list F)) : list (list (list F)) :=
  (fun i => top_left i m) <$> seq 1 (length m).

(** ** The table built by [pd.DataFrame]

    [pd.DataFrame(data, index=..., columns=...)] on a sequence of
    one-dimensional rows: the rows are first laid out in a rectangular
    object array as wide as the longest row, the missing cells of shorter
    rows being left empty (they print as NaN); the number of columns
    passed must then equal that width and the number of index labels the
    number of rows, otherwise the constructor raises [ValueError]. *)
Record DataFrame (F : Type) : Type := mkDataFrame {
  df_index : list Z;
  df_columns : list Z;
  df_values : list (list (option F))
}.
Arguments mkDataFrame {F} _ _ _.
Arguments df_index {F} _.
Arguments df_columns {F} _.
Arguments df_values {F} _.

Definition pad_row {F : Type} (width : nat) (row : list F) : list (option F) :=
  (Some <$> row) ++ replicate (width - length row)%nat None.

Definition pd_DataFrame {F : Type} (data : list (list F)) (index columns : list Z)
  : exn + DataFrame F :=
  match data with
  | [] => inr (mkDataFrame index columns
                 (replicate (length index) (replicate (length columns) None)))
  | _ :: _ =>
      let width := max_list (length <$> data) in
      if negb (length columns =? width)%nat then inl ValueError
      else if negb (length index =? length data)%nat then inl ValueError
      else inr (mkDataFrame index columns (pad_row width <$> data))
  end.

(** Unpacking [zip] of the starred list of pairs into two names: it
    fails on an empty list, for which [zip()] yields nothing. *)
Definition unzip_pairs {A B : Type} (pairs : list (A * B)) : exn + (list A * list B) :=
  match pairs with
  | [] => inl ValueError
  | _ :: _ => inr (pairs.*1, pairs.*2)
  end.

(** [{k: v for k, v in zip(keys, values)}]: later bindings of a repeated
    key replace earlier ones. *)
Definition dict_of_zip {V : Type} (keys : list Z) (values : list V) : gmap Z V :=
  foldl (fun d kv => <[kv.1 := kv.2]> d) ∅ (zip keys values).

(** ** Configuration values

    What [yaml.load] returns: scalars, dictionaries with string keys, and
    other structures (sequences and the like), which the pipeline only
    hands to the library and which stay opaque. *)
#[warnings="-register-all"]
Inductive cfg_value (Node : Type) : Type :=
| CBool (b : bool)
| CInt (i : Z)
| CStr (s : string)
| CNode (n : Node)
| CDict (d : gmap string (cfg_value Node)).
Arguments CBool {Node} _.
Arguments CInt {Node} _.
Arguments CStr {Node} _.
Arguments CNode {Node} _.
Arguments CDict {Node} _.

(** [d[key]] *)
Definition subscript {Node : Type} (d : cfg_value Node) (key : string)
  : exn + cfg_value Node :=
  match d with
  | CDict m => match m !! key with Some v => inr v | None => inl (KeyError key) end
  | _ => inl TypeError
  end.

(** A configuration value used where an integer is expected ([bool] is a
    subclass of [int]). *)
Definition as_int {Node : Type} (v : cfg_value Node) : exn + Z :=
  match v with
  | CInt i => inr i
  | CBool b => inr (if b then 1 else 0)
  | _ => inl TypeError
  end.

(** ** The external library *)

Class Regym : Type := {
  (** state owned by the library and the numeric back ends *)
  Runtime : Type;
  (** references to agent objects *)
  Agent : Type;
  Task : Type;
  Env : Type;
  Scheme : Type;
  (** menagerie entries *)
  Entry : Type;
  Trajectories : Type;
  (** serialised agent *)
  Blob : Type;
  (** nested configuration structure *)
  Node : Type;
  (** matrix and distribution entries (float64) *)
  Float : Type;

  np_random_seed : Z -> Runtime -> Runtime;
  torch_manual_seed : Z -> Runtime -> Runtime;
  (** [self_play_training(env, training_agent, self_play_scheme,
      target_episodes, iteration, menagerie, menagerie_path)]; [None]
      when the engine raises *)
  self_play_training :
    Env -> Agent -> Scheme -> Z -> Z -> list Entry -> string ->
    Runtime -> Runtime * option (list Entry * Agent * Trajectories);
  (** [agent.clone(training=...)]; [None] is the default argument *)
  agent_clone : Agent -> option bool -> Runtime -> Runtime * Agent;
  (** what [AgentHook(agent, save_path=...)] stores at [save_path] *)
  agent_hook : Agent -> Runtime -> Blob;
  compute_winrate_matrix_metagame :
    list Agent -> Env -> Z -> Runtime -> Runtime * list (list Float);
  (** [compute_nash_averaging(m, perform_logodds_transformation=...)],
      returning the pair (maxent_nash, nash_averaging) *)
  compute_nash_averaging : list (list Float) -> bool -> list Float * list Float;
  task_env : Task -> Env;
  scheme_name : Scheme -> string;
  agent_name : Agent -> string;
  generate_task : cfg_value Node -> Runtime -> Runtime * Task;
  initialize_training_schemes : cfg_value Node -> Runtime -> Runtime * list Scheme;
  initialize_agents : cfg_value Node -> cfg_value Node -> Runtime -> Runtime * list Agent;
  filter_relevant_agent_configurations : cfg_value Node -> cfg_value Node -> cfg_value Node;
  (** [str(v)] on a dictionary or another nested structure *)
  structure_str : cfg_value Node -> string
}.

(** [f'{v}'] on a configuration value. *)
Definition cfg_str `{Regym} (v : cfg_value Node) : string :=
  match v with
  | CBool true => "True"
  | CBool false => "False"
  | CInt i => str_int i
  | CStr s => s
  | _ => structure_str v
  end.

(** ** File system, trace and world *)

Inductive node `{Regym} : Type :=
| Directory
| PolicyFile (b : Blob)
| PickleFile (d : gmap Z (list (list Float)))
| CsvFile (df : DataFrame Float).

(** What the run does that can be observed from outside, in order. The
    three kinds of file the run persists carry what was written. *)
Inductive event `{Regym} : Type :=
| SeedNumpy (seed : Z)
| SeedTorch (seed : Z)
| MakeDirs (path : string)
| MkDir (path : string)
| Train (iteration target_episodes : Z)
| SavePolicy (path : string) (b : Blob)
| Benchmark (population_size : nat) (episodes : Z)
| Dump (path : string) (d : gmap Z (list (list Float)))
| ToCsv (path : string) (df : DataFrame Float).

Record World `{Regym} : Type := mkWorld {
  runtime : Runtime;
  fs : gmap string node;
  trace : list event
}.
Arguments mkWorld {_} _ _ _.

(** ** The state-and-error monad *)

Definition M `{Regym} (A : Type) : Type := World -> World * (exn + A).

Definition ret `{Regym} {A : Type} (a : A) : M A := fun w => (w, inr a).

Definition raise `{Regym} {A : Type} (e : exn) : M A := fun w => (w, inl e).

Definition bind `{Regym} {A B : Type} (c : M A) (k : A -> M B) : M B :=
  fun w =>
    match c w with
    | (w', inl e) => (w', inl e)
    | (w', inr a) => k a w'
    end.

Notation "'let*' x ':=' c 'in' k" := (bind c (fun x => k))
  (at level 10, x pattern, c at level 100, k at level 200).

Definition lift `{Regym} {A : Type} (r : exn + A) : M A := fun w => (w, r).

Definition emit `{Regym} (e : event) : M unit :=
  fun w => (mkWorld (runtime w) (fs w) (trace w ++ [e]), inr tt).

Definition write_file `{Regym} (path : string) (n : node) : M unit :=
  fun w => (mkWorld (runtime w) (<[path := n]> (fs w)) (trace w), inr tt).

(** [os.path.exists(path)] *)
Definition path_exists `{Regym} (path : string) : M bool :=
  fun w => (w, inr (bool_decide (is_Some (fs w !! path)))).

(** [os.makedirs(path)] and [os.mkdir(path)]; only the directory named
    is recorded, not the intermediate ones [makedirs] creates. *)
Definition makedirs `{Regym} (path : string) : M unit :=
  let* _ := emit (MakeDirs path) in write_file path Directory.

Definition mkdir `{Regym} (path : string) : M unit :=
  let* _ := emit (MkDir path) in write_file path Directory.

(** A call into the library that cannot raise. *)
Definition call `{Regym} {A : Type} (f : Runtime -> Runtime * A) : M A :=
  fun w => let '(r, a) := f (runtime w) in (mkWorld r (fs w) (trace w), inr a).

(** A call into the training engine, which can. *)
Definition call_engine `{Regym} {A : Type} (f : Runtime -> Runtime * option A) : M A :=
  fun w =>
    let '(r, o) := f (runtime w) in
    (mkWorld r (fs w) (trace w),
     match o with Some a => inr a | None => inl TrainingFailure end).

(** ** The pipeline of [nash_experiment.py] *)

Section Pipeline.
Context `{Regym}.

Definition seed_numpy (seed : Z) : M unit :=
  fun w => (mkWorld (np_random_seed seed (runtime w)) (fs w) (trace w ++ [SeedNumpy seed]),
            inr tt).

Definition seed_torch (seed : Z) : M unit :=
  fun w => (mkWorld (torch_manual_seed seed (runtime w)) (fs w) (trace w ++ [SeedTorch seed]),
            inr tt).

(** [AgentHook(agent, save_path=save_path)] *)
Definition AgentHook (agent : Agent) (save_path : string) : M unit :=
  fun w =>
    let b := agent_hook agent (runtime w) in
    (mkWorld (runtime w) (<[save_path := PolicyFile b]> (fs w))
       (trace w ++ [SavePolicy save_path b]),
     inr tt).

Definition save_trained_policy (trained_agent : Agent) (save_path : string) : M unit :=
  let* frozen := call (agent_clone trained_agent (Some false)) in
  AgentHook frozen save_path.

(** The agent handed back is [training_agent], the reference passed in,
    not the one the engine returned. *)
Definition train_for_given_iterations
    (env : Env) (training_agent : Agent) (self_play_scheme : Scheme)
    (menagerie : list Entry) (menagerie_path : string)
    (next_training_iterations completed_iterations : Z)
  : M (list Entry * Agent * Trajectories) :=
  let* _ := emit (Train completed_iterations next_training_iterations) in
  let* (menagerie, trained_agent, trajectories) :=
    call_engine (self_play_training env training_agent self_play_scheme
                   next_training_iterations completed_iterations
                   menagerie menagerie_path) in
  ret (menagerie, training_agent, trajectories).

(** [f'{trained_policy_save_directory}/{target_iteration}_iterations.pt'] *)
Definition policy_path (trained_policy_save_directory : string) (target_iteration : Z)
  : string :=
  trained_policy_save_directory +:+ "/" +:+ str_int target_iteration +:+ "_iterations.pt".

(** The variables the loop of [training_phase] updates. *)
Record loop_state : Type := mkLoop {
  menagerie : list Entry;
  training_agent : Agent;
  completed_iterations : Z;
  agents_to_benchmark : list Agent
}.

Fixpoint training_loop (env : Env) (self_play_scheme : Scheme)
    (menagerie_path trained_policy_save_directory : string)
    (targets : list Z) (st : loop_state) : M loop_state :=
  match targets with
  | [] => ret st
  | target_iteration :: rest =>
      let next_training_iterations := target_iteration - completed_iterations st in
      let* (menagerie', trained_agent, _) :=
        train_for_given_iterations env (training_agent st) self_play_scheme
          (menagerie st) menagerie_path
          next_training_iterations (completed_iterations st) in
      let completed_iterations' := completed_iterations st + next_training_iterations in
      let* _ := save_trained_policy trained_agent
                  (policy_path trained_policy_save_directory target_iteration) in
      let* snapshot := call (agent_clone trained_agent None) in
      training_loop env self_play_scheme menagerie_path trained_policy_save_directory rest
        (mkLoop menagerie' trained_agent completed_iterations'
                (agents_to_benchmark st ++ [snapshot]))
  end.

Definition initial_loop_state (training_agent : Agent) : loop_state :=
  mkLoop [] training_agent 0 [].

Definition training_phase (task : Task) (training_agent : Agent) (self_play_scheme : Scheme)
    (checkpoint_at_iterations : list Z) (base_path : string) : M (list Agent) :=
  let menagerie_path := base_path +:+ "/menagerie" in
  let* present := path_exists base_path in
  let* _ := (if present then ret tt
             else let* _ := makedirs base_path in mkdir menagerie_path) in
  let* st := training_loop (task_env task) self_play_scheme menagerie_path base_path
               (sorted checkpoint_at_iterations) (initial_loop_state training_agent) in
  ret (agents_to_benchmark st).

Definition compute_optimality_metrics (population : list Agent) (task : Task)
    (benchmarking_episodes : Z)
  : M (list (list (list Float)) * list (list Float * list Float)) :=
  let* _ := emit (Benchmark (length population) benchmarking_episodes) in
  let* winrate_matrix :=
    call (compute_winrate_matrix_metagame population (task_env task) benchmarking_episodes) in
  let winrate_submatrices := prefix_submatrices winrate_matrix in
  let evolution_maxent_nash_and_nash_averaging :=
    (fun m => compute_nash_averaging m true) <$> winrate_submatrices in
  ret (winrate_submatrices, evolution_maxent_nash_and_nash_averaging).

Definition winrate_matrices_path (save_path : string) : string :=
  save_path +:+ "/winrate_matrices.pickle".

Definition evolution_path (save_path : string) : string :=
  save_path +:+ "/evolution_maxent_nash.csv".

Definition save_winrate_matrices (winrate_submatrices : list (list (list Float)))
    (checkpoint_at_iterations : list Z) (save_path : string) : M unit :=
  let checkpoints_winrate_submatrices :=
    dict_of_zip checkpoint_at_iterations winrate_submatrices in
  let* _ := emit (Dump (winrate_matrices_path save_path) checkpoints_winrate_submatrices) in
  write_file (winrate_matrices_path save_path) (PickleFile checkpoints_winrate_submatrices).

Definition save_evolution_maxent_nash_and_nash_averaging
    (evolution_maxent_nash_and_nash_averaging : list (list Float * list Float))
    (checkpoint_at_iterations : list Z) (save_path : string) : M unit :=
  let* (maxent_nash_list, nash_averaging_list) :=
    lift (unzip_pairs evolution_maxent_nash_and_nash_averaging) in
  let* nash_progression_df :=
    lift (pd_DataFrame maxent_nash_list checkpoint_at_iterations
            (range 0 (length checkpoint_at_iterations))) in
  let* _ := emit (ToCsv (evolution_path save_path) nash_progression_df) in
  write_file (evolution_path save_path) (CsvFile nash_progression_df).

Definition save_results (winrate_submatrices : list (list (list Float)))
    (evolution_maxent_nash_and_nash_averaging : list (list Float * list Float))
    (checkpoint_at_iterations : list Z) (save_path : string) : M unit :=
  let* present := path_exists save_path in
  let* _ := (if present then ret tt else makedirs save_path) in
  let* _ := save_winrate_matrices winrate_submatrices checkpoint_at_iterations save_path in
  save_evolution_maxent_nash_and_nash_averaging
    evolution_maxent_nash_and_nash_averaging checkpoint_at_iterations save_path.

Definition experiment (task : Task) (training_agent : Agent) (self_play_scheme : Scheme)
    (checkpoint_at_iterations : list Z) (base_path : string) (seed : Z)
    (benchmarking_episodes : Z) : M unit :=
  let* _ := seed_numpy seed in
  let* _ := seed_torch seed in
  let* population := training_phase task training_agent self_play_scheme
                       checkpoint_at_iterations base_path in
  let* (winrate_submatrices, evolution_maxent_nash_and_nash_averaging) :=
    compute_optimality_metrics population task benchmarking_episodes in
  save_results winrate_submatrices evolution_maxent_nash_and_nash_averaging
    checkpoint_at_iterations (base_path +:+ "/results").

(** *** The driver *)

Definition initialize_experiment (experiment_config agents_config : cfg_value Node)
  : M (Task * list Scheme * list Agent * cfg_value Node) :=
  let* environment := lift (subscript experiment_config "environment") in
  let* task := call (generate_task environment) in
  let* schemes := lift (subscript experiment_config "self_play_training_schemes") in
  let* sp_schemes := call (initialize_training_schemes schemes) in
  let* environment' := lift (subscript experiment_config "environment") in
  let* agents := call (initialize_agents environment' agents_config) in
  let* seed := lift (subscript experiment_config "seed") in
  ret (task, sp_schemes, agents, seed).

(** From the parsed YAML document on. *)
Definition load_configs (all_configs : cfg_value Node)
  : M (cfg_value Node * cfg_value Node) :=
  let* experiment_config := lift (subscript all_configs "experiment") in
  let* agents := lift (subscript all_configs "agents") in
  ret (experiment_config,
       filter_relevant_agent_configurations experiment_config agents).

Fixpoint for_each {A : Type} (l : list A) (body : A -> M unit) : M unit :=
  match l with
  | [] => ret tt
  | x :: rest => let* _ := body x in for_each rest body
  end.

(** The [__main__] block. The seed and the episode budget are converted
    to integers where [experiment] is entered; the debugger breakpoint is
    left out. *)
Definition main (all_configs : cfg_value Node) : M unit :=
  let* (experiment_config, agents_config) := load_configs all_configs in
  let* (task, sp_schemes, agents, seed) :=
    initialize_experiment experiment_config agents_config in
  let checkpoint_at_iterations := range_step 0 50 10 in
  let* base_path := lift (subscript experiment_config "experiment_id") in
  for_each sp_schemes (fun sp_scheme =>
    for_each agents (fun agent =>
      let* training_agent := call (agent_clone agent (Some true)) in
      let path := cfg_str base_path +:+ "/" +:+ scheme_name sp_scheme
                    +:+ "-" +:+ agent_name agent in
      let* episodes := lift (subscript experiment_config "benchmarking_episodes") in
      let* episodes := lift (as_int episodes) in
      let* seed := lift (as_int seed) in
      experiment task training_agent sp_scheme checkpoint_at_iterations
        path seed episodes)).

End Pipeline.

(** ** Reading a trace *)

Section Observations.
Context `{Regym}.

(** The training segments started, as (iteration, target_episodes). *)
Definition train_events (tr : list event) : list (Z * Z) :=
  omap (fun e => match e with Train i n => Some (i, n) | _ => None end) tr.

(** The agent snapshots persisted, as (path, content). *)
Definition saved_policies (tr : list event) : list (string * Blob) :=
  omap (fun e => match e with SavePolicy p b => Some (p, b) | _ => None end) tr.

(** The checkpoint records persisted: the pickled dictionary of win-rate
    submatrices and the table of Nash distributions. *)
Definition is_record_write (e : event) : bool :=
  match e with Dump _ _ | ToCsv _ _ => true | _ => false end.

Definition record_writes (tr : list event) : list event := List.filter is_record_write tr.

Definition is_directory_event (e : event) : bool :=
  match e with MakeDirs _ | MkDir _ => true | _ => false end.

(** The trace without the creation of directories, which depends on what
    the disk held before the run. *)
Definition observable (tr : list event) : list event :=
  List.filter (fun e => negb (is_directory_event e)) tr.

(** The iteration count a training segment ends at. *)
Definition boundary (segment : Z * Z) : Z := segment.1 + segment.2.

(** The segments of a schedule entered with [completed] iterations done. *)
Fixpoint segments (completed : Z) (targets : list Z) : list (Z * Z) :=
  match targets with
  | [] => []
  | target :: rest => (completed, target - completed) :: segments target rest
  end.

(** The world in which the loop of [training_phase] starts. *)
Definition after_setup (base_path : string) (w : World) : World :=
  if bool_decide (is_Some (fs w !! base_path)) then w
  else mkWorld (runtime w)
         (<[base_path +:+ "/menagerie" := Directory]> (<[base_path := Directory]> (fs w)))
         ((trace w ++ [MakeDirs base_path]) ++ [MkDir (base_path +:+ "/menagerie")]).



(** A table of Nash distributions is built with the log-odds flag set
    when its rows are what the solver returns, with
    [perform_logodds_transformation=True], on the prefix submatrices of a
    win-rate matrix. *)
Definition logodds_table (e : event) : Prop :=
  match e with
  | ToCsv _ df =>
      exists (winrate_matrix : list (list Float)) (index : list Z),
        pd_DataFrame
          ((fun m => (compute_nash_averaging m true).1) <$> prefix_submatrices winrate_matrix)
          index (range 0 (length index)) = inr df
  | _ => True
  end.

(** A computation emits only events that satisfy [P] and, when it
    returns normally, returns a value that satisfies [Q]. *)
Definition emits {A : Type} (c : M A) (P : event -> Prop) (Q : A -> Prop) : Prop :=
  forall w, exists evs,
    trace (c w).1 = trace w ++ evs /\ Forall P evs /\
    forall a, (c w).2 = inr a -> Q a.


(** The training engine returns normally on every call. *)
Definition engine_reliable : Prop :=
  forall env agent scheme n i m p r,
    is_Some (self_play_training env agent scheme n i m p r).2.



End Observations.

(** ** The log-odds transformation of [prototype_app.py]

    Floating-point numbers are idealised as real numbers. *)

Module Logit.
Local Open Scope R_scope.

(** [np.ones_like(m)] *)
Definition ones_like (m : list (list R)) : list (list R) :=
  (fun row : list R => (fun _ : R => 1) <$> row) <$> m.

(** Element-wise operations on two-dimensional arrays of one shape. *)
Definition elementwise (op : R -> R -> R) (a b : list (list R)) : list (list R) :=
  zip_with (zip_with op) a b.

(** [np.log(winrate_matrix / (np.ones_like(winrate_matrix) - winrate_matrix))] *)
Definition logit_matrix (winrate_matrix : list (list R)) : list (list R) :=
  (fun row : list R => ln <$> row) <$>
    elementwise Rdiv winrate_matrix
      (elementwise Rminus (ones_like winrate_matrix) winrate_matrix).

(** The transformation of one entry. *)
Definition logit (p : R) : R := ln (p / (1 - p)).

(** Modelled from the spec: [inverse_logit], which the sources do not
    define; the logistic function. *)
Definition inverse_logit (x : R) : R := 1 / (1 + exp (- x)).

(** Modelled from the spec: clamping of an entry to [[eps, 1 - eps]],
    which the sources leave to the solver. *)
Definition clamp (eps p : R) : R := Rmax eps (Rmin p (1 - eps)).

End Logit.

(** ** A small instance of the library

    Used to run the pipeline on concrete inputs. The runtime is an
    integer generator state that seeding numpy resets; agents are
    integers; the engine advances the generator by the number of episodes
    and extends the menagerie, and fails from iteration [fails_from] on
    when one is given; the tournament fills the matrix from the generator
    state; the solver returns a constant weight per member that tells
    whether the log-odds flag was set. *)

Module Toy.

Definition tournament (n : nat) (r : Z) : list (list Z) :=
  (fun i => (fun j => r + 10 * Z.of_nat i + Z.of_nat j) <$> seq 0 n) <$> seq 0 n.

#[local] Instance regym (fails_from : option Z) : Regym := {|
  Runtime := Z;
  Agent := Z;
  Task := unit;
  Env := unit;
  Scheme := unit;
  Entry := Z;
  Trajectories := unit;
  Blob := Z;
  Node := unit;
  Float := Z;
  np_random_seed := fun seed _ => seed;
  torch_manual_seed := fun _ r => r;
  self_play_training := fun _ agent _ n i m _ r =>
    match fails_from with
    | Some k => if k <=? i then (r, None) else (r + n, Some (m ++ [i], agent + 1, tt))
    | None => (r + n, Some (m ++ [i], agent + 1, tt))
    end;
  agent_clone := fun agent _ r => (r, agent);
  agent_hook := fun agent r => agent + r;
  compute_winrate_matrix_metagame := fun population _ _ r =>
    (r + 1, tournament (length population) r);
  compute_nash_averaging := fun m flag =>
    (replicate (length m) (if flag then 1 else 0), replicate (length m) 0);
  task_env := fun t => t;
  scheme_name := fun _ => "naive";
  agent_name := fun _ => "ppo";
  generate_task := fun _ r => (r, tt);
  initialize_training_schemes := fun _ r => (r, [tt]);
  initialize_agents := fun _ _ r => (r, [0]);
  filter_relevant_agent_configurations := fun _ agents => agents;
  structure_str := fun _ => "structure"
|}.

Definition empty_world (fails_from : option Z) (r : Z) : @World (regym fails_from) :=
  mkWorld (r : @Runtime (regym fails_from)) ∅ [].

(** A configuration document whose experiment section sets
    [use_logodds] to [use_logodds]. *)
Definition config (use_logodds : bool) : cfg_value unit :=
  CDict (list_to_map
    [("experiment",
      CDict (list_to_map
        [("experiment_id", CStr "exp");
         ("environment", CStr "RockPaperScissors-v0");
         ("self_play_training_schemes", CNode tt);
         ("seed", CInt 7);
         ("benchmarking_episodes", CInt 50);
         ("use_logodds", CBool use_logodds)]));
     ("agents", CNode tt)]).

End Toy.

(** ** Further readings of a trace *)

Section Replay.
Context `{Regym}.

(** The disk once the snapshot writes of a trace have been done on it, in
    order. *)
Definition replay_snapshots (writes : list (string * Blob)) (disk : gmap string node)
  : gmap string node :=
  foldl (fun d pb => <[pb.1 := PolicyFile pb.2]> d) disk writes.

(** A training segment is one of the schedule of the checkpoint list
    [l]. *)
Definition scheduled (l : list Z) (e : event) : Prop :=
  match e with
  | Train i n => (i, n) ∈ segments 0 (sorted l)
  | _ => True
  end.

End Replay.

(** ** The dashboard of [prototype_app.py]

    The random generator of win-rate matrices lives in a module of the
    repository that is not among the sources; it is a parameter here, with
    the state of its random source threaded explicitly. Caching of
    [compute_winrate_matrices] and the drawing itself are left out. *)

Module Prototype.

Section Dashboard.
Context {G F : Type}.
Context (generate_random_winrate_matrix : Z -> G -> G * list (list F)).

(** [enumerate(l)] *)
Definition enumerate {A : Type} (l : list A) : list (Z * A) :=
  zip (Z.of_nat <$> seq 0 (length l)) l.

(** The dictionary comprehension of [compute_winrate_matrices], one
    (size, checkpoint) pair at a time. *)
Fixpoint winrate_matrices_loop (items : list (Z * Z)) (g : G)
    (matrices : gmap Z (list (list F))) : G * gmap Z (list (list F)) :=
  match items with
  | [] => (g, matrices)
  | (size, checkpoint) :: rest =>
      let '(g', m) := generate_random_winrate_matrix (size + 1) g in
      winrate_matrices_loop rest g' (<[checkpoint := m]> matrices)
  end.

Definition compute_winrate_matrices (num_matrices : Z) (g : G)
  : G * gmap Z (list (list F)) :=
  winrate_matrices_loop (enumerate (range_step 100 1001 100)) g ∅.

(** [matrices[checkpoint]] in [single_empirical_game_view], for the value
    [checkpoint] of the slider. *)
Definition winrate_matrix_at (checkpoint : Z) (g : G) : exn + list (list F) :=
  let min_checkpoint := 100 in
  let max_checkpoint := 1000 in
  let step_checkpoint := 100 in
  let range_checkpoint := range_step min_checkpoint (max_checkpoint + 1) step_checkpoint in
  let matrices :=
    (compute_winrate_matrices (Z.of_nat (length range_checkpoint)) g).2 in
  match matrices !! checkpoint with
  | Some winrate_matrix => inr winrate_matrix
  | None => inl (KeyError (str_int checkpoint))
  end.

End Dashboard.

Section Mask.
Context {F : Type}.
(** the values 0 and True take in the array *)
Context (zero one : F).

(** [np.zeros_like(a)] *)
Definition zeros_like (a : list (list F)) : list (list F) :=
  (fun row : list F => (fun _ : F => zero) <$> row) <$> a.

(** [np.triu_indices_from(a, k=k)]: the positions (i, j) of [a] with
    j - i >= k, row by row, as the pair of their row and column indices. *)
Definition triu_indices_from (a : list (list F)) (k : Z) : list nat * list nat :=
  let n := length a in
  let m := length (default [] (head a)) in
  let positions :=
    i ← seq 0 n;
    j ← seq 0 m;
    if bool_decide (k <= Z.of_nat j - Z.of_nat i) then [(i, j)] else [] in
  (positions.*1, positions.*2).

(** [a[i, j] = v] *)
Definition set_cell (i j : nat) (v : F) (a : list (list F)) : list (list F) :=
  alter (fun row : list F => <[j := v]> row) i a.

(** [a[indices] = v] for a pair of index arrays *)
Definition assign_at (indices : list nat * list nat) (v : F) (a : list (list F))
  : list (list F) :=
  foldl (fun a ij => set_cell ij.1 ij.2 v a) a (zip indices.1 indices.2).

(** The mask of [plot_progression_nash_equilibriums]. *)
Definition progression_mask (progression_nash : list (list F)) : list (list F) :=
  let mask := zeros_like progression_nash in
  assign_at (triu_indices_from mask 1) one mask.

End Mask.

End Prototype.

(** * Properties *)

(** ** Strings and paths *)

Lemma length_append (a b : string) :
  String.length (a +:+ b) = (String.length a + String.length b)%nat.
Proof. induction a as [|c a IH]; simpl; [done|]. by rewrite IH. Qed.



Lemma last_char_append (a b : string) :
  b <> "" ->
  get (String.length (a +:+ b) - 1) (a +:+ b) = get (String.length b - 1) b.
Proof.
  intros Hb. rewrite length_append.
  rewrite (append_correct2 a b (String.length b - 1)). f_equal.
  destruct b; [done|]. simpl. lia.
Qed.

Section Paths.
Context `{Regym}.


Lemma policy_path_last (dir : string) (i : Z) :
  get (String.length (policy_path dir i) - 1) (policy_path dir i) = Some "t"%char.
Proof.
  unfold policy_path.
  rewrite (last_char_append dir) by done.
  rewrite (last_char_append "/") by (destruct (str_int i); done).
  by rewrite (last_char_append (str_int i)).
Qed.

Lemma policy_path_not_pickle (dir save_path : string) (i : Z) :
  policy_path dir i <> winrate_matrices_path save_path.
Proof.
  intros Heq. pose proof (policy_path_last dir i) as Hlast.
  rewrite Heq in Hlast. unfold winrate_matrices_path in Hlast.
  by rewrite last_char_append in Hlast.
Qed.

Lemma policy_path_not_csv (dir save_path : string) (i : Z) :
  policy_path dir i <> evolution_path save_path.
Proof.
  intros Heq. pose proof (policy_path_last dir i) as Hlast.
  rewrite Heq in Hlast. unfold evolution_path in Hlast.
  by rewrite last_char_append in Hlast.
Qed.

End Paths.

(** ** Sorting *)

Lemma sorted_Sorted (l : list Z) : Sorted Z.le (sorted l).
Proof. apply (Sorted_merge_sort Z.le). Qed.

Lemma sorted_Permutation (l : list Z) : sorted l ≡ₚ l.
Proof. apply merge_sort_Permutation. Qed.




(** ** The training loop *)

Section Loop.
Context `{Regym}.

Lemma train_events_app (a b : list event) :
  train_events (a ++ b) = train_events a ++ train_events b.
Proof. apply omap_app. Qed.

Lemma saved_policies_app (a b : list event) :
  saved_policies (a ++ b) = saved_policies a ++ saved_policies b.
Proof. apply omap_app. Qed.

Lemma record_writes_app (a b : list event) :
  record_writes (a ++ b) = record_writes a ++ record_writes b.
Proof. apply List.filter_app. Qed.


(** One turn of the loop of [training_phase]. *)
Lemma training_loop_cons env scheme mpath dir target rest st w :
  training_loop env scheme mpath dir (target :: rest) st w =
  let delta := target - completed_iterations st in
  match self_play_training env (training_agent st) scheme delta (completed_iterations st)
          (menagerie st) mpath (runtime w) with
  | (r1, None) =>
      (mkWorld r1 (fs w) (trace w ++ [Train (completed_iterations st) delta]),
       inl TrainingFailure)
  | (r1, Some (menagerie', _, _)) =>
      let '(r2, frozen) := agent_clone (training_agent st) (Some false) r1 in
      let b := agent_hook frozen r2 in
      let '(r3, snapshot) := agent_clone (training_agent st) None r2 in
      training_loop env scheme mpath dir rest
        (mkLoop menagerie' (training_agent st) (completed_iterations st + delta)
           (agents_to_benchmark st ++ [snapshot]))
        (mkWorld r3 (<[policy_path dir target := PolicyFile b]> (fs w))
           ((trace w ++ [Train (completed_iterations st) delta])
              ++ [SavePolicy (policy_path dir target) b]))
  end.
Proof.
  simpl. unfold bind at 1. unfold train_for_given_iterations, bind, emit, call_engine, ret.
  simpl.
  destruct (self_play_training _ _ _ _ _ _ _ _) as [r1 [[[m' a'] tr]|]]; simpl; [|done].
  unfold save_trained_policy, bind, call, AgentHook. simpl.
  destruct (agent_clone _ (Some false) r1) as [r2 frozen]. simpl.
  destruct (agent_clone _ None r2) as [r3 snapshot]. done.
Qed.

(** Whatever the engine does, the loop writes agent snapshots only. *)
Lemma training_loop_frame env scheme mpath dir targets st w w' r :
  training_loop env scheme mpath dir targets st w = (w', r) ->
  exists evs,
    trace w' = trace w ++ evs /\
    record_writes evs = [] /\
    observable evs = evs /\
    (saved_policies evs).*1 `prefix_of` (policy_path dir <$> targets) /\
    (forall p, fs w' !! p = fs w !! p \/
               exists t b, p = policy_path dir t /\ fs w' !! p = Some (PolicyFile b)) /\
    (forall e, r = inl e -> e = TrainingFailure).
Proof.
  revert st w. induction targets as [|target rest IH]; intros st w Hrun.
  - injection Hrun as <- <-. exists []. rewrite app_nil_r.
    repeat split; try done. by left.
  - rewrite training_loop_cons in Hrun. cbv zeta in Hrun.
    destruct (self_play_training _ _ _ _ _ _ _ _) as [r1 [[[m' a'] tr]|]].
    + destruct (agent_clone _ (Some false) r1) as [r2 frozen].
      destruct (agent_clone _ None r2) as [r3 snapshot].
      apply IH in Hrun as (evs & Htr & Hrec & Hobs & Hsaved & Hfs & Herr).
      simpl in Htr.
      eexists (_ :: _ :: evs). split; [by rewrite Htr, <- !app_assoc|].
      split; [done|]. split; [by simpl; rewrite <- Hobs at 2|].
      split; [simpl; by apply prefix_cons|].
      split; [|done].
      intros p. destruct (Hfs p) as [Heq|Hpol]; [|by right].
      simpl in Heq. destruct (decide (p = policy_path dir target)) as [->|Hne].
      * right. eexists _, _. split; [done|]. by rewrite Heq, lookup_insert_eq.
      * left. by rewrite Heq, lookup_insert_ne.
    + injection Hrun as <- <-. eexists [_]. simpl. repeat split; try done.
      * apply prefix_nil.
      * by left.
      * by intros e [= <-].
Qed.

(** A run of the loop that returns normally has trained one segment per
    target, in order, and persisted one snapshot after each. *)
Lemma training_loop_normal env scheme mpath dir targets st w w' st' :
  training_loop env scheme mpath dir targets st w = (w', inr st') ->
  exists evs,
    trace w' = trace w ++ evs /\
    train_events evs = segments (completed_iterations st) targets /\
    (saved_policies evs).*1 = policy_path dir <$> targets /\
    length (agents_to_benchmark st') =
      (length (agents_to_benchmark st) + length targets)%nat /\
    completed_iterations st' = default (completed_iterations st) (last targets) /\
    (forall t, t ∈ targets -> exists b, fs w' !! policy_path dir t = Some (PolicyFile b)).
Proof.
  revert st w. induction targets as [|target rest IH]; intros st w Hrun.
  - injection Hrun as <- <-. exists []. rewrite app_nil_r.
    repeat split; try done. by intros t Ht%elem_of_nil.
  - pose proof Hrun as Hframe.
    rewrite training_loop_cons in Hrun. cbv zeta in Hrun.
    destruct (self_play_training _ _ _ _ _ _ _ _) as [r1 [[[m' a'] tr]|]]; [|done].
    destruct (agent_clone _ (Some false) r1) as [r2 frozen].
    destruct (agent_clone _ None r2) as [r3 snapshot].
    pose proof Hrun as Hrest.
    apply IH in Hrun as (evs & Htr & Htrain & Hsaved & Hlen & Hdone & Hfs).
    simpl in Htr, Htrain, Hlen, Hdone.
    eexists (_ :: _ :: evs). split; [by rewrite Htr, <- !app_assoc|].
    split. { simpl. rewrite Htrain. do 2 f_equal. lia. }
    split. { unfold saved_policies in *. simpl. by f_equal. }
    split. { rewrite Hlen, length_app. simpl. lia. }
    split. { rewrite Hdone, last_cons. destruct (last rest); simpl; [done|lia]. }
    intros t [->|Ht]%elem_of_cons; [|by apply Hfs].
    apply training_loop_frame in Hrest as (_ & _ & _ & _ & _ & Hfr & _).
    destruct (Hfr (policy_path dir target)) as [Heq|(t & b & _ & Hb)]; [|by eexists].
    simpl in Heq. rewrite lookup_insert_eq in Heq. by eexists.
Qed.

(** With a reliable engine the loop returns normally. *)
Lemma training_loop_total env scheme mpath dir targets st w :
  engine_reliable ->
  exists w' st', training_loop env scheme mpath dir targets st w = (w', inr st').
Proof.
  intros Hrel. revert st w. induction targets as [|target rest IH]; intros st w.
  - by eexists _, _.
  - rewrite training_loop_cons. cbv zeta.
    pose proof (Hrel env (training_agent st) scheme (target - completed_iterations st)
                  (completed_iterations st) (menagerie st) mpath (runtime w)) as [res Hres].
    destruct (self_play_training _ _ _ _ _ _ _ _) as [r1 [[[m' a'] tr]|]]; [|done].
    destruct (agent_clone _ (Some false) r1) as [r2 frozen].
    destruct (agent_clone _ None r2) as [r3 snapshot]. apply IH.
Qed.

Lemma training_phase_unfold task agent scheme l base w :
  training_phase task agent scheme l base w =
  match training_loop (task_env task) scheme (base +:+ "/menagerie") base (sorted l)
          (initial_loop_state agent) (after_setup base w) with
  | (w', inl e) => (w', inl e)
  | (w', inr st) => (w', inr (agents_to_benchmark st))
  end.
Proof.
  unfold training_phase, after_setup, bind, path_exists. simpl.
  destruct (bool_decide _); simpl.
  - destruct (training_loop _ _ _ _ _ _ _) as [w' [e|st]]; done.
  - unfold makedirs, mkdir, bind, emit, write_file. simpl.
    destruct (training_loop _ _ _ _ _ _ _) as [w' [e|st]]; done.
Qed.

Lemma after_setup_trace base w :
  exists evs, trace (after_setup base w) = trace w ++ evs /\
              train_events evs = [] /\ saved_policies evs = [] /\
              record_writes evs = [] /\ observable evs = [].
Proof.
  unfold after_setup. destruct (bool_decide _).
  - exists []. by rewrite app_nil_r.
  - eexists [_; _]. by rewrite <- app_assoc.
Qed.

Lemma after_setup_fs base w p :
  p <> base -> p <> base +:+ "/menagerie" ->
  fs (after_setup base w) !! p = fs w !! p.
Proof.
  intros H1 H2. unfold after_setup. destruct (bool_decide _); [done|].
  simpl. by rewrite !lookup_insert_ne.
Qed.

End Loop.

(** ** The schedule *)

Section Schedule.
Context `{Regym}.

Lemma boundary_segments (c : Z) (targets : list Z) :
  boundary <$> segments c targets = targets.
Proof.
  revert c. induction targets as [|t rest IH]; intros c; simpl; [done|].
  rewrite IH. f_equal. unfold boundary. simpl. lia.
Qed.

Lemma length_segments (c : Z) (targets : list Z) :
  length (segments c targets) = length targets.
Proof. by rewrite <- (boundary_segments c targets) at 2; rewrite length_fmap. Qed.

Lemma segments_nonneg (c : Z) (targets : list Z) :
  Sorted Z.le (c :: targets) -> Forall (fun seg => 0 <= seg.2) (segments c targets).
Proof.
  revert c. induction targets as [|t rest IH]; intros c Hs; simpl; [done|].
  apply Sorted_inv in Hs as [Hs Hhd]. apply HdRel_inv in Hhd.
  constructor; [simpl; lia | by apply IH].
Qed.

(** Two equal consecutive targets give a segment of length zero. *)
Lemma segments_repeat (c : Z) (targets : list Z) (i : nat) (t : Z) :
  targets !! i = Some t -> targets !! S i = Some t ->
  segments c targets !! S i = Some (t, 0).
Proof.
  revert c i. induction targets as [|t0 rest IH]; intros c i Hi HSi; [done|].
  destruct i as [|i]; simpl in *.
  - destruct rest as [|t1 rest]; [done|]. simpl in *.
    injection Hi as ->. injection HSi as ->. do 2 f_equal. lia.
  - by apply IH.
Qed.

Lemma sorted_nonneg_head (l : list Z) :
  Forall (Z.le 0) l -> Sorted Z.le (0 :: sorted l).
Proof.
  intros Hl. constructor; [apply sorted_Sorted|].
  assert (Hs : Forall (Z.le 0) (sorted l)) by by rewrite sorted_Permutation.
  destruct Hs; by constructor.
Qed.

Lemma sorted_last_max (l : list Z) (x : Z) :
  x ∈ l -> x <= default 0 (last (sorted l)).
Proof.
  intros Hx. rewrite <- sorted_Permutation in Hx.
  pose proof (StronglySorted_merge_sort Z.le l) as Hs. fold (sorted l) in Hs.
  revert Hx Hs. generalize (sorted l) as s. intros s.
  induction s as [|y s IH]; intros Hx Hs; [by apply elem_of_nil in Hx|].
  apply StronglySorted_inv in Hs as [Hs Hall].
  rewrite last_cons. apply elem_of_cons in Hx as [->|Hx].
  - destruct (last s) as [z|] eqn:Hlast; simpl; [|lia].
    rewrite Forall_forall in Hall. apply Hall.
    apply last_Some in Hlast as [s' ->]. set_solver.
  - specialize (IH Hx Hs). destruct (last s) as [z|] eqn:Hlast; simpl in *; [done|].
    apply last_None in Hlast as ->. by apply elem_of_nil in Hx.
Qed.

Lemma sorted_last_elem (l : list Z) :
  l <> [] -> default 0 (last (sorted l)) ∈ l.
Proof.
  intros Hne. pose proof (sorted_Permutation l) as Hperm.
  revert Hperm. generalize (sorted l) as s. intros s Hperm.
  rewrite <- Hperm.
  destruct (last s) as [z|] eqn:Hlast.
  - apply last_Some in Hlast as [s' ->]. set_solver.
  - apply last_None in Hlast as ->. destruct Hne.
    symmetry. by apply Permutation_nil_l.
Qed.

(** *** [training_phase] as a whole *)

Lemma training_phase_normal task agent scheme l base w w' population :
  training_phase task agent scheme l base w = (w', inr population) ->
  exists evs st,
    training_loop (task_env task) scheme (base +:+ "/menagerie") base (sorted l)
      (initial_loop_state agent) (after_setup base w) = (w', inr st) /\
    trace w' = trace w ++ evs /\
    train_events evs = segments 0 (sorted l) /\
    (saved_policies evs).*1 = policy_path base <$> sorted l /\
    record_writes evs = [] /\
    length population = length l /\
    completed_iterations st = default 0 (last (sorted l)) /\
    (forall t, t ∈ l -> exists b, fs w' !! policy_path base t = Some (PolicyFile b)).
Proof.
  rewrite training_phase_unfold.
  destruct (training_loop _ _ _ _ _ _ _) as [w1 [e|st]] eqn:Hloop; [done|].
  intros [= -> <-].
  pose proof Hloop as Hframe.
  apply training_loop_frame in Hframe as (evs' & Htr' & Hrec & _).
  apply training_loop_normal in Hloop as (evs & Htr & Htrain & Hsaved & Hlen & Hdone & Hfs).
  assert (evs' = evs) as -> by (by eapply app_inv_head; rewrite <- Htr, <- Htr').
  destruct (after_setup_trace base w) as (evs0 & Htr0 & Htrain0 & Hsaved0 & Hrec0 & _).
  exists (evs0 ++ evs), st. split; [done|].
  split; [by rewrite Htr, Htr0, app_assoc|].
  split; [by rewrite train_events_app, Htrain0, Htrain|].
  split; [by rewrite saved_policies_app, Hsaved0; simpl; rewrite Hsaved|].
  split; [by rewrite record_writes_app, Hrec0, Hrec|].
  split. { rewrite Hlen. simpl. by rewrite sorted_Permutation. }
  split; [done|].
  intros t Ht. apply Hfs. by rewrite sorted_Permutation.
Qed.

Lemma training_phase_total task agent scheme l base w :
  engine_reliable ->
  exists w' population, training_phase task agent scheme l base w = (w', inr population).
Proof.
  intros Hrel. rewrite training_phase_unfold.
  destruct (training_loop_total (task_env task) scheme (base +:+ "/menagerie") base
              (sorted l) (initial_loop_state agent) (after_setup base w) Hrel)
    as (w' & st & ->).
  by eexists _, _.
Qed.

End Schedule.

(** ** Prefix submatrices *)





Section Benchmarking.
Context `{Regym}.

Lemma compute_optimality_metrics_unfold population task episodes w :
  compute_optimality_metrics population task episodes w =
  let res := compute_winrate_matrix_metagame population (task_env task) episodes (runtime w) in
  (mkWorld res.1 (fs w) (trace w ++ [Benchmark (length population) episodes]),
   inr (prefix_submatrices res.2,
        (fun m => compute_nash_averaging m true) <$> prefix_submatrices res.2)).
Proof.
  unfold compute_optimality_metrics, bind, emit, call, ret. simpl.
  by destruct (compute_winrate_matrix_metagame _ _ _ _).
Qed.

End Benchmarking.

(** ** The dictionary of win-rate submatrices *)

Section Dict.
Context {V : Type}.
Implicit Types (kvs : list (Z * V)) (d : gmap Z V).






End Dict.



(** ** The log-odds transformation *)

Section LogitFacts.
Import Logit.
Local Open Scope R_scope.

Lemma logit_matrix_entrywise (m : list (list R)) :
  logit_matrix m = (fun row : list R => logit <$> row) <$> m.
Proof.
  unfold logit_matrix, elementwise, ones_like.
  induction m as [|row m IH]; simpl; [done|]. f_equal; [|exact IH].
  clear IH. induction row as [|p row IH]; simpl; [done|]. by f_equal.
Qed.

Lemma inverse_logit_logit (p : R) : 0 < p < 1 -> inverse_logit (logit p) = p.
Proof.
  intros [Hp0 Hp1]. unfold inverse_logit, logit.
  assert (Hq : 0 < p / (1 - p)) by (apply Rdiv_lt_0_compat; lra).
  rewrite exp_Ropp, exp_ln by done. field. lra.
Qed.

Lemma clamp_id (eps p : R) : eps < p < 1 - eps -> clamp eps p = p.
Proof.
  intros [H1 H2]. unfold clamp.
  rewrite Rmin_left by lra. by rewrite Rmax_right by lra.
Qed.

End LogitFacts.

(** ** Persisting the records *)

Lemma append_assoc (a b c : string) : (a +:+ b) +:+ c = a +:+ (b +:+ c).
Proof.
  induction a as [|x a IH]; [done|].
  change (String x ((a +:+ b) +:+ c) = String x (a +:+ (b +:+ c))). by f_equal.
Qed.

Lemma append_not_self (a b : string) : b <> "" -> a +:+ b <> a.
Proof.
  intros Hb Heq. apply (f_equal String.length) in Heq.
  rewrite length_append in Heq. destruct b; [done|]. simpl in Heq. lia.
Qed.



Section Records.
Context `{Regym}.


Lemma pickle_path_not_setup (base : string) :
  winrate_matrices_path (base +:+ "/results") <> base /\
  winrate_matrices_path (base +:+ "/results") <> base +:+ "/menagerie".
Proof.
  unfold winrate_matrices_path. rewrite append_assoc. split.
  - by apply append_not_self.
  - by intros ?%String.app_inj.
Qed.

Lemma csv_path_not_setup (base : string) :
  evolution_path (base +:+ "/results") <> base /\
  evolution_path (base +:+ "/results") <> base +:+ "/menagerie".
Proof.
  unfold evolution_path. rewrite append_assoc. split.
  - by apply append_not_self.
  - by intros ?%String.app_inj.
Qed.

Lemma record_path_not_directory (save_path : string) :
  winrate_matrices_path save_path <> save_path /\ evolution_path save_path <> save_path.
Proof. split; by apply append_not_self. Qed.




(** A run of [training_phase] that ends with an exception. *)
Lemma training_phase_failure task agent scheme l base w w' e :
  training_phase task agent scheme l base w = (w', inl e) ->
  e = TrainingFailure /\
  exists evs,
    trace w' = trace w ++ evs /\
    record_writes evs = [] /\
    (saved_policies evs).*1 `prefix_of` (policy_path base <$> sorted l) /\
    fs w' !! winrate_matrices_path (base +:+ "/results")
      = fs w !! winrate_matrices_path (base +:+ "/results") /\
    fs w' !! evolution_path (base +:+ "/results")
      = fs w !! evolution_path (base +:+ "/results").
Proof.
  rewrite training_phase_unfold.
  destruct (training_loop _ _ _ _ _ _ _) as [w1 [e1|st]] eqn:Hloop; [|done].
  intros [= -> ->].
  apply training_loop_frame in Hloop as (evs & Htr & Hrec & _ & Hsaved & Hfs & Herr).
  split; [by apply Herr|].
  destruct (after_setup_trace base w) as (evs0 & Htr0 & _ & Hsaved0 & Hrec0 & _).
  exists (evs0 ++ evs). split; [by rewrite Htr, Htr0, app_assoc|].
  split; [by rewrite record_writes_app, Hrec0, Hrec|].
  split; [by rewrite saved_policies_app, Hsaved0|].
  destruct (pickle_path_not_setup base) as [Hp1 Hp2].
  destruct (csv_path_not_setup base) as [Hc1 Hc2].
  split.
  - destruct (Hfs (winrate_matrices_path (base +:+ "/results"))) as [->|(t & b & Heq & _)].
    + by apply after_setup_fs.
    + symmetry in Heq. by apply policy_path_not_pickle in Heq.
  - destruct (Hfs (evolution_path (base +:+ "/results"))) as [->|(t & b & Heq & _)].
    + by apply after_setup_fs.
    + symmetry in Heq. by apply policy_path_not_csv in Heq.
Qed.

End Records.

(** ** The table of Nash distributions *)






(** ** A logic of emitted events *)

Section Emits.
Context `{Regym}.
Context (P : event -> Prop).

Lemma emits_ret {A : Type} (a : A) (Q : A -> Prop) : Q a -> emits (ret a) P Q.
Proof.
  intros Ha w. exists []. simpl. rewrite app_nil_r.
  repeat split; [done|]. by intros ? [= <-].
Qed.

Lemma emits_lift {A : Type} (r : exn + A) (Q : A -> Prop) :
  (forall a, r = inr a -> Q a) -> emits (lift r) P Q.
Proof. intros Hr w. exists []. simpl. by rewrite app_nil_r. Qed.

Lemma emits_emit (e : event) (Q : unit -> Prop) : P e -> Q tt -> emits (emit e) P Q.
Proof.
  intros He Hq w. exists [e]. simpl. repeat split; [by repeat constructor|].
  by intros [] _.
Qed.

Lemma emits_write_file (path : string) (n : node) (Q : unit -> Prop) :
  Q tt -> emits (write_file path n) P Q.
Proof.
  intros Hq w. exists []. simpl. rewrite app_nil_r. repeat split; [done|].
  by intros [] _.
Qed.

Lemma emits_path_exists (path : string) : emits (path_exists path) P (fun _ => True).
Proof. intros w. exists []. simpl. by rewrite app_nil_r. Qed.

Lemma emits_call {A : Type} (f : Runtime -> Runtime * A) (Q : A -> Prop) :
  (forall r, Q (f r).2) -> emits (call f) P Q.
Proof.
  intros Hf w. exists []. unfold call. specialize (Hf (runtime w)).
  destruct (f (runtime w)) as [r a]. simpl. rewrite app_nil_r.
  repeat split; [done|]. by intros ? [= <-].
Qed.

Lemma emits_call_engine {A : Type} (f : Runtime -> Runtime * option A) :
  emits (call_engine f) P (fun _ => True).
Proof.
  intros w. exists []. unfold call_engine.
  destruct (f (runtime w)) as [r a]. simpl. by rewrite app_nil_r.
Qed.

Lemma emits_bind {A B : Type} (c : M A) (k : A -> M B) (Q : A -> Prop) (Q' : B -> Prop) :
  emits c P Q -> (forall a, Q a -> emits (k a) P Q') -> emits (bind c k) P Q'.
Proof.
  intros Hc Hk w. unfold bind.
  destruct (Hc w) as (evs & Htr & Hevs & Hq).
  destruct (c w) as [w1 [e|a]]; simpl in *.
  - exists evs. by repeat split.
  - destruct (Hk a (Hq a eq_refl) w1) as (evs' & Htr' & Hevs' & Hq').
    exists (evs ++ evs'). split; [by rewrite Htr', Htr, app_assoc|].
    split; [by apply Forall_app|done].
Qed.

Lemma emits_weaken {A : Type} (c : M A) (Q Q' : A -> Prop) :
  emits c P Q -> (forall a, Q a -> Q' a) -> emits c P Q'.
Proof.
  intros Hc Hq w. destruct (Hc w) as (evs & Htr & Hevs & Ha).
  exists evs. repeat split; [done..|]. intros a Hr. by apply Hq, Ha.
Qed.

Lemma emits_for_each {A : Type} (l : list A) (body : A -> M unit) :
  (forall x, emits (body x) P (fun _ => True)) ->
  emits (for_each l body) P (fun _ => True).
Proof.
  intros Hbody. induction l as [|x l IH]; simpl.
  - by apply emits_ret.
  - eapply emits_bind; [apply Hbody|]. intros _ _. apply IH.
Qed.

End Emits.

(** One step through a computation whose events need no argument. *)
Ltac emits_step :=
  first
    [ eapply (emits_bind _ _ _ (fun _ => True)); [|intros ? _]
    | apply emits_emit; [exact I|exact I]
    | apply emits_write_file; exact I
    | apply emits_path_exists
    | apply emits_call_engine
    | apply emits_call; intros ?; exact I
    | apply emits_ret; exact I
    | apply emits_lift; intros ? ?; exact I ].

(** ** The log-odds flag *)

Section Logodds.
Context `{Regym}.

Lemma emits_seeds (seed : Z) :
  emits (let* _ := seed_numpy seed in seed_torch seed) logodds_table (fun _ => True).
Proof. intros w. eexists [_; _]. simpl. rewrite <- app_assoc. repeat split; by repeat constructor. Qed.

Lemma emits_training_phase task agent scheme l base :
  emits (training_phase task agent scheme l base) logodds_table (fun _ => True).
Proof.
  intros w. destruct (training_phase task agent scheme l base w) as [w' r] eqn:Hrun.
  assert (Hevs : exists evs, trace w' = trace w ++ evs /\ record_writes evs = []).
  { destruct r as [e|population].
    - apply training_phase_failure in Hrun as (_ & evs & ? & ? & _). by exists evs.
    - apply training_phase_normal in Hrun as (evs & _ & _ & ? & _ & _ & ? & _). by exists evs. }
  destruct Hevs as (evs & Htr & Hrec). exists evs. repeat split; [done|].
  apply Forall_forall. intros e He. destruct e; try exact I.
  assert (Hin : ToCsv path df ∈ record_writes evs).
  { apply list_elem_of_In, List.filter_In. split; [by apply list_elem_of_In|done]. }
  rewrite Hrec in Hin. by apply elem_of_nil in Hin.
Qed.

Lemma emits_compute_optimality_metrics population task episodes :
  emits (compute_optimality_metrics population task episodes) logodds_table
    (fun res => exists winrate_matrix,
       res = (prefix_submatrices winrate_matrix,
              (fun m => compute_nash_averaging m true) <$> prefix_submatrices winrate_matrix)).
Proof.
  intros w. rewrite compute_optimality_metrics_unfold. cbv zeta. simpl.
  eexists [_]. repeat split; [by repeat constructor|].
  intros a [= <-]. by eexists.
Qed.

Lemma emits_save_results (winrate_matrix : list (list Float)) l save_path :
  emits (save_results (prefix_submatrices winrate_matrix)
           ((fun m => compute_nash_averaging m true) <$> prefix_submatrices winrate_matrix)
           l save_path)
    logodds_table (fun _ => True).
Proof.
  unfold save_results, save_winrate_matrices, save_evolution_maxent_nash_and_nash_averaging,
    makedirs.
  eapply emits_bind; [apply emits_path_exists|]. intros present _.
  eapply emits_bind.
  { instantiate (1 := fun _ => True). destruct present; repeat emits_step. }
  intros _ _. eapply (emits_bind _ _ _ (fun _ => True)); [repeat emits_step|]. intros _ _.
  eapply emits_bind.
  { apply emits_lift. intros a Ha. exact Ha. }
  intros [maxent_nash_list nash_averaging_list] Hunzip. simpl.
  eapply emits_bind.
  { apply emits_lift. intros a Ha. exact Ha. }
  intros df Hdf. simpl.
  eapply (emits_bind _ _ _ (fun _ => True)); [|intros; apply emits_write_file; exact I].
  apply emits_emit; [|exact I]. simpl in *.
  exists winrate_matrix, l. rewrite <- Hdf. f_equal.
  destruct (prefix_submatrices winrate_matrix); [done|].
  injection Hunzip as <- _. by rewrite <- list_fmap_compose.
Qed.

Lemma emits_experiment task agent scheme l base seed episodes :
  emits (experiment task agent scheme l base seed episodes) logodds_table (fun _ => True).
Proof.
  unfold experiment.
  eapply emits_bind.
  { instantiate (1 := fun _ => True). intros w. eexists [_]. simpl.
    repeat split; by repeat constructor. }
  intros _ _. eapply emits_bind.
  { instantiate (1 := fun _ => True). intros w. eexists [_]. simpl.
    repeat split; by repeat constructor. }
  intros _ _. eapply emits_bind; [apply emits_training_phase|]. intros population _.
  eapply emits_bind; [apply emits_compute_optimality_metrics|].
  intros [subs evo] [winrate_matrix [= -> ->]]. apply emits_save_results.
Qed.

End Logodds.

(** ** Reproducibility *)

Section Reproducibility.
Context `{Regym}.








End Reproducibility.

(** ** Snapshots of a whole run *)

Section Snapshots.
Context `{Regym}.



End Snapshots.

(** * The claims *)

(** ** C1: validation of the checkpoint list *)

(** C1, as the code has it. [training_phase] validates nothing and
    raises no scheduling error: for every checkpoint list, empty,
    unsorted or with repeated entries, it returns normally (as long as
    the training engine does), having sorted the list without removing
    duplicates and run one training segment and persisted one snapshot
    per entry; a repeated entry gives a segment of length zero. *)
Theorem training_phase_accepts_any_schedule `{Regym}
    (task : Task) (agent : Agent) (scheme : Scheme) (l : list Z) (base : string)
    (w : World) :
  engine_reliable ->
  exists w' population evs,
    training_phase task agent scheme l base w = (w', inr population) /\
    trace w' = trace w ++ evs /\
    boundary <$> train_events evs = sorted l /\
    sorted l ≡ₚ l /\
    length (train_events evs) = length l /\
    (saved_policies evs).*1 = policy_path base <$> sorted l /\
    length population = length l /\
    (forall i t, sorted l !! i = Some t -> sorted l !! S i = Some t ->
                 train_events evs !! S i = Some (t, 0)).
Proof.
  intros Hrel.
  destruct (training_phase_total task agent scheme l base w Hrel) as (w' & pop & Hrun).
  destruct (training_phase_normal _ _ _ _ _ _ _ _ Hrun)
    as (evs & st & _ & Htr & Htrain & Hsaved & _ & Hlen & _ & _).
  exists w', pop, evs. repeat split; try done.
  - by rewrite Htrain, boundary_segments.
  - apply sorted_Permutation.
  - by rewrite Htrain, length_segments, sorted_Permutation.
  - intros i t Hi HSi. rewrite Htrain. by apply segments_repeat.
Qed.

Lemma training_phase_accepts_any_schedule_witness :
  exists w' population evs,
    training_phase (H:=Toy.regym None) tt 0 tt [10; 0; 10] "run" (Toy.empty_world None 5)
      = (w', inr population) /\
    trace w' = trace (Toy.empty_world None 5) ++ evs /\
    boundary <$> train_events evs = sorted [10; 0; 10] /\
    sorted [10; 0; 10] ≡ₚ [10; 0; 10] /\
    length (train_events evs) = length [10; 0; 10] /\
    (saved_policies evs).*1 = policy_path "run" <$> sorted [10; 0; 10] /\
    length population = length [10; 0; 10] /\
    (forall i t, sorted [10; 0; 10] !! i = Some t -> sorted [10; 0; 10] !! S i = Some t ->
                 train_events evs !! S i = Some (t, 0)).
Proof.
  apply (training_phase_accepts_any_schedule (H:=Toy.regym None)).
  intros env agent scheme n i m p r. simpl. eauto.
Defined.

(** C1 fails on the code. On the empty list [training_phase] returns
    an empty population instead of raising; on a list with a repeated
    entry it returns normally too, after two training segments, the
    second of length zero, and two snapshots written to the same path. *)
Lemma training_phase_raises_no_schedule_error :
  let run (l : list Z) :=
    training_phase (H:=Toy.regym None) tt 0 tt l "run" (Toy.empty_world None 5) in
  ((run []).2 = inr [] /\ train_events (trace (run []).1) = []) /\
  ((run [10; 10]).2 = inr [0; 0] /\
   train_events (trace (run [10; 10]).1) = [(0, 10); (10, 0)] /\
   (saved_policies (trace (run [10; 10]).1)).*1
     = ["run/10_iterations.pt"; "run/10_iterations.pt"]) /\
  (forall e, (run []).2 <> inl e) /\
  (forall e, (run [10; 10]).2 <> inl e).
Proof.
  cbv zeta. repeat split; try (vm_compute; reflexivity);
    intros e; vm_compute; discriminate.
Qed.

(** ** C2: one snapshot per boundary *)



(** ** C3: prefix monotonicity *)



(** ** C4: when the records are persisted *)




(** ** C5: the log-odds flag *)

(** C5, as the code has it. No configuration entry reaches the solver:
    whatever the configuration document holds (a [use_logodds] entry
    included), every table of Nash distributions a run of the driver
    persists is built from what the solver returns with the log-odds
    transformation switched on. *)
Theorem logodds_always_applied `{Regym} (all_configs : cfg_value Node) (w : World) :
  exists evs,
    trace (main all_configs w).1 = trace w ++ evs /\
    Forall logodds_table evs.
Proof.
  assert (Hmain : emits (main all_configs) logodds_table (fun _ => True)).
  { unfold main, load_configs, initialize_experiment.
    eapply (emits_bind _ _ _ (fun _ => True)); [repeat emits_step|].
    intros [experiment_config agents_config] _.
    eapply (emits_bind _ _ _ (fun _ => True)); [repeat emits_step|].
    intros [[[task sp_schemes] agents] seed] _.
    eapply (emits_bind _ _ _ (fun _ => True)); [repeat emits_step|]. intros base_path _.
    apply emits_for_each. intros sp_scheme.
    apply emits_for_each. intros agent.
    eapply (emits_bind _ _ _ (fun _ => True)); [repeat emits_step|]. intros training_agent _.
    eapply (emits_bind _ _ _ (fun _ => True)); [repeat emits_step|]. intros episodes _.
    eapply (emits_bind _ _ _ (fun _ => True)); [repeat emits_step|]. intros episodes' _.
    eapply (emits_bind _ _ _ (fun _ => True)); [repeat emits_step|]. intros seed' _.
    apply emits_experiment. }
  destruct (Hmain w) as (evs & Htr & Hevs & _). by exists evs.
Qed.

(** C5 fails on the code. The configuration below sets [use_logodds]
    to false; the driver completes, and the table it persists holds what
    the solver returns with the log-odds flag set (weights 1 in this
    instance), not what it returns with the flag cleared (weights 0). *)
Lemma logodds_applied_despite_configuration :
  let run := main (H:=Toy.regym None) (Toy.config false) (Toy.empty_world None 5) in
  let with_flag (flag : bool) : list (list (option Z)) :=
    pad_row 5 <$> ((fun m => (compute_nash_averaging (Regym:=Toy.regym None) m flag).1)
                     <$> prefix_submatrices (Toy.tournament 5 47)) in
  (exists experiment_config,
     subscript (Toy.config false) "experiment" = inr experiment_config /\
     subscript experiment_config "use_logodds" = inr (CBool false)) /\
  run.2 = inr tt /\
  (exists df,
     fs run.1 !! "exp/naive-ppo/results/evolution_maxent_nash.csv" = Some (CsvFile df) /\
     df_values df = with_flag true /\
     df_values df <> with_flag false).
Proof.
  cbv zeta. split; [|split].
  - eexists. split; vm_compute; reflexivity.
  - vm_compute. reflexivity.
  - eexists. split; [vm_compute; reflexivity|].
    split; [vm_compute; reflexivity|]. vm_compute. discriminate.
Qed.

(** ** C6: the table of Nash distributions *)



(** ** C7: the log-odds round trip *)

Section LogitClaim.
Import Logit.
Local Open Scope R_scope.

(** C7. For a clamp bound [eps >= 0] and a probability [p] strictly
    between [eps] and [1 - eps], clamping leaves [p] alone and the
    logistic function undoes the log-odds transformation: exactly, on
    real numbers. The same holds entry by entry for the transformation
    [prototype_app.py] applies to a win-rate matrix. *)
Theorem logit_round_trip (eps : R) :
  0 <= eps ->
  (forall p, eps < p < 1 - eps ->
     clamp eps p = p /\ inverse_logit (logit p) = p) /\
  (forall m : list (list R),
     Forall (Forall (fun p => eps < p < 1 - eps)) m ->
     (fun row : list R => inverse_logit <$> row) <$> logit_matrix m = m).
Proof.
  intros Heps. split.
  - intros p Hp. split; [by apply clamp_id|]. apply inverse_logit_logit. lra.
  - intros m Hm. rewrite logit_matrix_entrywise, <- list_fmap_compose.
    induction Hm as [|row m Hrow _ IH]; simpl; [done|]. f_equal; [|exact IH].
    rewrite <- list_fmap_compose.
    induction Hrow as [|p row Hp _ IHrow]; simpl; [done|]. f_equal; [|exact IHrow].
    apply inverse_logit_logit. lra.
Qed.

Lemma logit_round_trip_witness :
  clamp (1/100) (3/4) = 3/4 /\ inverse_logit (logit (3/4)) = 3/4 /\
  (fun row : list R => inverse_logit <$> row) <$> logit_matrix [[1/2; 3/4]; [1/4; 1/2]]
    = [[1/2; 3/4]; [1/4; 1/2]].
Proof.
  destruct (logit_round_trip (1/100)) as [Hp Hm]; [lra|].
  split; [apply Hp; lra|]. split; [apply Hp; lra|].
  apply Hm. repeat constructor; lra.
Defined.

End LogitClaim.

(** ** C8: reproducibility *)



(** ** C9: the order of the boundaries *)

(** C9. Whatever the order of the checkpoint list, [training_phase]
    trains up to its boundaries in ascending sorted order: the iteration
    counts at which the training segments end are the sorted list. When
    the list holds non-negative integers (distinct or not), every segment
    length [next_training_iterations] is non-negative, and
    [completed_iterations] after the last boundary is the maximum of the
    list. *)
Theorem training_phase_ascending_schedule `{Regym}
    (task : Task) (agent : Agent) (scheme : Scheme) (l : list Z) (base : string)
    (w : World) :
  engine_reliable ->
  exists w' population evs st,
    training_phase task agent scheme l base w = (w', inr population) /\
    training_loop (task_env task) scheme (base +:+ "/menagerie") base (sorted l)
      (initial_loop_state agent) (after_setup base w) = (w', inr st) /\
    trace w' = trace w ++ evs /\
    boundary <$> train_events evs = sorted l /\
    Sorted Z.le (sorted l) /\
    sorted l ≡ₚ l /\
    (Forall (Z.le 0) l ->
       Forall (fun seg => 0 <= seg.2) (train_events evs) /\
       (forall x, x ∈ l -> x <= completed_iterations st) /\
       (l <> [] -> completed_iterations st ∈ l)).
Proof.
  intros Hrel.
  destruct (training_phase_total task agent scheme l base w Hrel) as (w' & pop & Hrun).
  destruct (training_phase_normal _ _ _ _ _ _ _ _ Hrun)
    as (evs & st & Hloop & Htr & Htrain & _ & _ & _ & Hdone & _).
  exists w', pop, evs, st. repeat split; try done.
  - by rewrite Htrain, boundary_segments.
  - apply sorted_Sorted.
  - apply sorted_Permutation.
  - rewrite Htrain. by apply segments_nonneg, sorted_nonneg_head.
  - intros x Hx. rewrite Hdone. by apply sorted_last_max.
  - intros Hne. rewrite Hdone. by apply sorted_last_elem.
Qed.

Lemma training_phase_ascending_schedule_witness :
  Forall (Z.le 0) [20; 0; 10] /\
  exists w' population evs st,
    training_phase (H:=Toy.regym None) tt 0 tt [20; 0; 10] "run" (Toy.empty_world None 5)
      = (w', inr population) /\
    training_loop (H:=Toy.regym None) tt tt ("run" +:+ "/menagerie") "run" (sorted [20; 0; 10])
      (initial_loop_state (H:=Toy.regym None) 0) (after_setup "run" (Toy.empty_world None 5))
      = (w', inr st) /\
    trace w' = trace (Toy.empty_world None 5) ++ evs /\
    boundary <$> train_events evs = [0; 10; 20] /\
    Forall (fun seg => 0 <= seg.2) (train_events evs) /\
    (forall x, x ∈ [20; 0; 10] -> x <= completed_iterations st) /\
    completed_iterations st ∈ [20; 0; 10].
Proof.
  assert (Hnonneg : Forall (Z.le 0) [20; 0; 10]) by (repeat constructor; discriminate).
  split; [exact Hnonneg|].
  destruct (training_phase_ascending_schedule (H:=Toy.regym None) tt 0 tt [20; 0; 10] "run"
              (Toy.empty_world None 5))
    as (w' & population & evs & st & Hrun & Hloop & Htr & Hb & _ & _ & Hnn).
  { intros env agent scheme n i m p r. simpl. eauto. }
  destruct (Hnn Hnonneg) as (Hseg & Hmax & Hin).
  exists w', population, evs, st.
  split; [exact Hrun|]. split; [exact Hloop|]. split; [exact Htr|].
  split; [rewrite Hb; vm_compute; reflexivity|]. split; [exact Hseg|].
  split; [exact Hmax|]. apply Hin. discriminate.
Defined.

(** ** C10: entries of the persisted dictionary *)


